(** * Babel: locale data store and message catalog

    A shallow embedding of [babel/localedata.py], [babel/util.py],
    [babel/messages/catalog.py] and [babel/messages/checkers.py], with the
    properties of the natural-language specification stated over it.

    Layout: the Python built-ins the code relies on ([PyStr]), then the
    embedding of each source module, then the theorems. *)

From stdpp Require Import gmap strings list.
From Stdlib Require Import ZArith QArith Ascii Lia.

Close Scope Q_scope.
Local Open Scope string_scope.

Set Warnings "-register-all".

(* ===================================================================== *)
(** * Exceptions                                                          *)
(* ===================================================================== *)

(** The exception classes the modelled code can raise; [TranslationError]
    is the class declared in [babel/messages/catalog.py] and carries its
    message. *)
Inductive exn :=
| IOError | TypeError | KeyError | AttributeError | AssertionError
| TranslationError (message : string).

(** The outcome of a call: a returned value or a raised exception. *)
Inductive result (A : Type) := Ok (a : A) | Raise (e : exn).
Arguments Ok {A} a.
Arguments Raise {A} e.

(* ===================================================================== *)
(** * Python [str] methods used by the code                               *)
(* ===================================================================== *)

(** A Python [str] is a sequence of code points.  The model works on
    [list ascii], an [ascii] standing for the code point of the same number.
    The case tables below are Python's for the code points 0..127 and for
    U+00DF (LATIN SMALL LETTER SHARP S, the one non-ASCII letter used in the
    examples); statements are made only for strings over that alphabet. *)
Module PyStr.

Definition code (c : ascii) : N := N_of_ascii c.

Definition is_ascii (c : ascii) : bool := (code c <? 128)%N.

Definition sharp_s : ascii := ascii_of_N 223.

Definition is_upper (c : ascii) : bool := ((65 <=? code c) && (code c <=? 90))%N.
Definition is_lower (c : ascii) : bool := ((97 <=? code c) && (code c <=? 122))%N.
Definition is_digit (c : ascii) : bool := ((48 <=? code c) && (code c <=? 57))%N.

(** [str.isspace] on code points below 128: TAB..CR, FS..US and SPACE. *)
Definition is_space (c : ascii) : bool :=
  ((9 <=? code c) && (code c <=? 13) || (28 <=? code c) && (code c <=? 32))%N.

(** A cased character: a letter that has an upper or lower variant. *)
Definition is_cased (c : ascii) : bool :=
  is_upper c || is_lower c || Ascii.eqb c sharp_s.

Definition to_lower (c : ascii) : ascii :=
  if is_upper c then ascii_of_N (code c + 32) else c.

Definition to_upper (c : ascii) : ascii :=
  if is_lower c then ascii_of_N (code c - 32) else c.

(** Full case mappings: one code point may map to several. *)
Definition lower_char (c : ascii) : list ascii := [to_lower c].

Definition upper_char (c : ascii) : list ascii :=
  if Ascii.eqb c sharp_s then ["S"; "S"]%char else [to_upper c].

Definition title_char (c : ascii) : list ascii :=
  if Ascii.eqb c sharp_s then ["S"; "s"]%char else [to_upper c].

(** [s.lower()] and [s.upper()]. *)
Definition lower (s : list ascii) : list ascii := concat (map lower_char s).
Definition upper (s : list ascii) : list ascii := concat (map upper_char s).

(** [s.title()]: a cased character is title-cased when the previous
    character is not cased, and lower-cased otherwise. *)
Fixpoint title_from (prev_cased : bool) (s : list ascii) : list ascii :=
  match s with
  | [] => []
  | c :: r =>
      (if prev_cased then lower_char c else title_char c)
        ++ title_from (is_cased c) r
  end.

Definition title (s : list ascii) : list ascii := title_from false s.

(** [s.lstrip()], [s.rstrip()], [s.strip()]. *)
Fixpoint lstrip (s : list ascii) : list ascii :=
  match s with
  | c :: r => if is_space c then lstrip r else s
  | [] => []
  end.

Definition rstrip (s : list ascii) : list ascii := rev (lstrip (rev s)).

Definition strip (s : list ascii) : list ascii := rstrip (lstrip s).

(** [s.replace(a, b)] for single characters [a] and [b]. *)
Definition replace (a b : ascii) (s : list ascii) : list ascii :=
  map (fun c => if Ascii.eqb c a then b else c) s.

(** [s.split(sep)] for a single-character separator: never empty. *)
Fixpoint split (sep : ascii) (s : list ascii) : list (list ascii) :=
  match s with
  | [] => [[]]
  | c :: r =>
      if Ascii.eqb c sep then [] :: split sep r
      else match split sep r with
           | p :: ps => (c :: p) :: ps
           | [] => [[c]]
           end
  end.

(** [sep.join(parts)]. *)
Fixpoint join (sep : list ascii) (parts : list (list ascii)) : list ascii :=
  match parts with
  | [] => []
  | [p] => p
  | p :: ps => p ++ sep ++ join sep ps
  end.

Definition chars (s : string) : list ascii := String.list_ascii_of_string s.
Definition str (l : list ascii) : string := String.string_of_list_ascii l.

End PyStr.

(* ===================================================================== *)
(** * babel/localedata.py                                                 *)
(* ===================================================================== *)

Module LocaleData.

Import PyStr.

(** [normalize_locale(name)]: [None] for a name that is empty once
    stripped, otherwise the identifier with proper casing. *)
Definition normalize_chars (name : list ascii) : option (list ascii) :=
  let name := replace "-" "_" (strip name) in
  match name with
  | [] => None
  | _ =>
      match split "_" name with
      | [] => None
      | p0 :: rest =>
          let lang := lower p0 in
          let rest :=
            match rest with
            | p1 :: tl =>
                (if Nat.eqb (length p1) 4 then title p1 else upper p1) :: tl
            | [] => []
            end in
          Some (join ["_"%char] (lang :: rest))
      end
  end.

Definition normalize_locale (name : string) : option string :=
  str <$> normalize_chars (chars name).


(** ** Locale data values *)

(** Keys of a locale data mapping: [str | int | None]. *)
Inductive key := KStr (s : string) | KInt (z : Z) | KNone.

#[export] Instance key_eq_dec : EqDecision key.
Proof. solve_decision. Defined.

(** What a slot of the data tree holds: a scalar ([None] or a string;
    other scalars are never inspected by the code and behave like
    strings), a nested [dict], an [Alias], an [(alias, others)] tuple, or
    (once a slot has been read through a view) a [LocaleDataDict].
    A [dict] keeps its insertion order, so it is an association list with
    at most one entry per key. *)
Inductive value :=
| VNone
| VStr (s : string)
| VDict (d : list (key * value))
| VAlias (keys : list key)
| VTuple (alias : list key) (others : list (key * value))
| VView (d : list (key * value)).

Abbreviation dict := (list (key * value)).

(** [d.get(k)] / [k in d] / [d[k]]. *)
Fixpoint dict_get (k : key) (d : dict) : option value :=
  match d with
  | [] => None
  | (k', v) :: r => if decide (k' = k) then Some v else dict_get k r
  end.

(** [d[k] = v]: an existing key keeps its position, a new one goes last. *)
Fixpoint dict_set (k : key) (v : value) (d : dict) : dict :=
  match d with
  | [] => [(k, v)]
  | (k', v') :: r =>
      if decide (k' = k) then (k, v) :: r else (k', v') :: dict_set k v r
  end.

(** ** [merge(dict1, dict2)]

    The function mutates [dict1]; the model returns the new contents of
    [dict1].  One step of the loop body, for the item [(k, val2)] of
    [dict2]; [rec] is the recursive call on two nested dicts. *)
Definition merge_item (rec : dict -> dict) (k : key) (val2 : value)
    (dict1 : dict) : dict :=
  match dict_get k dict1 with
  | None => dict_set k val2 dict1
  | Some val1 =>
      match val1, val2 with
      | VDict d1, VDict _ => dict_set k (VDict (rec d1)) dict1
      | _, _ => dict_set k val2 dict1
      end
  end.

(** The recursion is on the structure of the second argument. *)
Fixpoint merge_from (v2 : value) (dict1 : dict) {struct v2} : dict :=
  match v2 with
  | VDict d2 =>
      (fix loop (items : dict) (dict1 : dict) {struct items} : dict :=
         match items with
         | [] => dict1
         | (k, val2) :: r =>
             loop r (merge_item (merge_from val2) k val2 dict1)
         end) d2 dict1
  | _ => dict1
  end.

Definition merge (dict1 dict2 : dict) : dict := merge_from (VDict dict2) dict1.

(** ** [load(name, merge_inherited=True)] *)

(** A loaded mapping is an object: [oid] is its identity, [odata] its
    current contents. *)
Record obj := Obj { oid : nat; odata : dict }.

(** The process state: the module-level [_cache] and the next fresh
    object identity. *)
Record store := Store { cache : gmap string obj; next_oid : nat }.

Definition empty_store : store := Store ∅ 0.

(** What [load] does with the value stored under ['parent']:
    [if parent: parent_data = load(parent)]. *)
Inductive parent_action := Skip | Inherit (name : string) | Refuse (e : exn).

Definition parent_request (p : value) : parent_action :=
  match p with
  | VNone => Skip
  | VStr s => if decide (s = "") then Skip else Inherit s
  | VDict [] | VView [] => Skip
  | VDict _ | VView _ | VTuple _ _ => Refuse TypeError   (* unhashable cache key *)
  | VAlias _ => Refuse IOError                           (* no such file *)
  end.

(** The locale-data directory: the mapping that [pickle.load] returns for
    the file of each identifier, absent when there is no such file. *)
Abbreviation disk := (gmap string dict).

(** [fuel] bounds the depth of the recursion through the parents; [None]
    means the bound was hit (in Python: unbounded recursion). *)
Fixpoint load (fuel : nat) (files : disk) (name : string)
    (merge_inherited : bool) (st : store) : option (result obj * store) :=
  match fuel with
  | 0 => None
  | S fuel =>
      match cache st !! name with
      | Some o => Some (Ok o, st)
      | None =>
          match files !! name with
          | None => Some (Raise IOError, st)
          | Some contents =>
              let me := next_oid st in
              let st := Store (cache st) (S me) in
              let store_and_return (data : dict) (st : store) :=
                Some (Ok (Obj me data),
                      Store (<[name := Obj me data]> (cache st)) (next_oid st)) in
              let with_parent (parent : string) :=
                match load fuel files parent true st with
                | None => None
                | Some (Raise e, st) => Some (Raise e, st)
                | Some (Ok parent_data, st) =>
                    store_and_return (merge contents (odata parent_data)) st
                end in
              if merge_inherited then
                match dict_get (KStr "parent") contents with
                | Some parent =>
                    match parent_request parent with
                    | Skip => store_and_return contents st
                    | Inherit p => with_parent p
                    | Refuse e => Some (Raise e, st)
                    end
                | None => with_parent "root"
                end
              else store_and_return contents st
          end
      end
  end.



(** A locale-data directory with two files, used in the examples: [root]
    names no parent, [en] inherits from [root]. *)
Definition example_root : dict :=
  [(KStr "parent", VStr "");
   (KStr "greeting", VStr "hello (root)");
   (KStr "only_root", VStr "r");
   (KStr "months", VDict [(KStr "1", VStr "M01"); (KStr "2", VStr "M02")])].

Definition example_en : dict :=
  [(KStr "parent", VStr "root");
   (KStr "greeting", VStr "hello (en)");
   (KStr "months", VDict [(KStr "1", VStr "January")])].

Definition example_files : disk :=
  <["root" := example_root]> (<["en" := example_en]> ∅).

(** ** [Alias] and [LocaleDataDict] *)

(** A computation that may raise, and may run out of fuel ([None]). *)
Definition comp (A : Type) : Type := option (result A).

Definition bind {A B} (c : comp A) (f : A -> comp B) : comp B :=
  match c with
  | None => None
  | Some (Raise e) => Some (Raise e)
  | Some (Ok a) => f a
  end.

Notation "x <- c ;; k" := (bind c (fun x => k))
  (at level 100, c at next level, right associativity).

(** Modelled from the spec: one step [data = data[key]] of the walk that
    [Alias.resolve] makes, on the mappings of the tree (a slot that holds a
    view is entered as the mapping it wraps). *)
Definition subscript (data : value) (k : key) : option value :=
  match data with
  | VDict d | VView d => dict_get k d
  | _ => None
  end.

(** Modelled from the spec: the walk of [Alias.resolve] along its keys;
    [None] when a key is missing. *)
Fixpoint walk (keys : list key) (data : value) : option value :=
  match keys with
  | [] => Some data
  | k :: r =>
      match subscript data k with
      | Some v => walk r v
      | None => None
      end
  end.







End LocaleData.

(* ===================================================================== *)
(** * The [PYTHON_FORMAT] pattern                                         *)
(* ===================================================================== *)

(** [PYTHON_FORMAT] of [babel/messages/catalog.py]:
    a percent sign, an optional parenthesised name of word characters, an
    optional flag of [-#0 +], an optional width ([*] or digits), an optional
    precision (a dot then [*] or digits), an optional length modifier of
    [hlL], and a conversion character of [diouxXeEfFgGcrs%].  No optional
    part can start with a character that a later part accepts, so the
    longest choice at each part decides the match.  Word characters and
    digits are those below code point 128. *)
Module PythonFormat.

Import PyStr.

Definition mem (c : ascii) (set : string) : bool :=
  existsb (Ascii.eqb c) (chars set).

Definition is_word (c : ascii) : bool :=
  is_upper c || is_lower c || is_digit c || Ascii.eqb c "_".

Definition is_flag (c : ascii) : bool := mem c "-#0 +".
Definition is_length (c : ascii) : bool := mem c "hlL".
Definition is_conversion (c : ascii) : bool := mem c "diouxXeEfFgGcrs%".

(** The longest prefix whose characters satisfy [p], and the rest. *)
Fixpoint span (p : ascii -> bool) (s : list ascii) : list ascii * list ascii :=
  match s with
  | c :: r => if p c then let '(a, b) := span p r in (c :: a, b) else ([], s)
  | [] => ([], [])
  end.

(** One optional character of a class. *)
Definition skip_opt (p : ascii -> bool) (s : list ascii) : list ascii :=
  match s with
  | c :: r => if p c then r else s
  | [] => []
  end.

(** [\*|\d+], when present. *)
Definition star_or_digits (s : list ascii) : option (list ascii) :=
  match s with
  | "*"%char :: r => Some r
  | _ => match span is_digit s with
         | ([], _) => None
         | (_, r) => Some r
         end
  end.

(** A match: the name group (absent when the placeholder has no
    parenthesised name), the conversion character, and the text after
    the match. *)
Record found := Found { name : option string; conv : ascii; after : list ascii }.

(** The pattern matched at the very start of [s]. *)
Definition match_here (s : list ascii) : option found :=
  match s with
  | "%"%char :: r =>
      let '(name, r) :=
        match r with
        | "("%char :: r' =>
            match span is_word r' with
            | (w, ")"%char :: r'') => (Some (str w), r'')
            | _ => (None, r)
            end
        | _ => (None, r)
        end in
      let r := skip_opt is_flag r in
      let r := match star_or_digits r with Some r' => r' | None => r end in
      let r :=
        match r with
        | "."%char :: r' =>
            match star_or_digits r' with Some r'' => r'' | None => r end
        | _ => r
        end in
      let r := skip_opt is_length r in
      match r with
      | c :: r => if is_conversion c then Some (Found name c r) else None
      | [] => None
      end
  | _ => None
  end.

(** [PYTHON_FORMAT.search(string)], as a truth value. *)
Fixpoint search_chars (s : list ascii) : bool :=
  match match_here s with
  | Some _ => true
  | None => match s with
            | _ :: r => search_chars r
            | [] => false
            end
  end.

Definition search (s : string) : bool := search_chars (chars s).

(** [PYTHON_FORMAT.finditer(string)]: the matches from left to right,
    each search resuming where the previous match ended.  [skip] counts
    the characters still covered by the last match. *)
Fixpoint finditer_from (skip : nat) (s : list ascii) : list found :=
  match s with
  | [] => []
  | _ :: r =>
      match skip with
      | S n => finditer_from n r
      | 0 =>
          match match_here s with
          | Some m => m :: finditer_from (length r - length (after m)) r
          | None => finditer_from 0 r
          end
      end
  end.

Definition finditer (s : string) : list found := finditer_from 0 (chars s).

End PythonFormat.

(* ===================================================================== *)
(** * babel/util.py                                                       *)
(* ===================================================================== *)

Module Util.

(** [distinct(iterable)]: the items in their original order, each kept at
    its first occurrence; [seen] is the set of items already yielded. *)
Fixpoint distinct_from {A} `{EqDecision A} (seen : list A) (iterable : list A)
    : list A :=
  match iterable with
  | [] => []
  | item :: r =>
      if decide (item ∈ seen) then distinct_from seen r
      else item :: distinct_from (item :: seen) r
  end.

Definition distinct {A} `{EqDecision A} (iterable : list A) : list A :=
  distinct_from [] iterable.

End Util.

(* ===================================================================== *)
(** * babel/messages/catalog.py                                           *)
(* ===================================================================== *)

Module Messages.

Import PyStr Util.

(** A message id: a string, or the sequence of forms of a pluralizable
    message.  The sequence is never empty (its first element, the singular
    form, is the storage key). *)
Inductive msgid := IdStr (s : string) | IdSeq (singular : string) (plurals : list string).

(** A translation: [None], a string, or a sequence of strings. *)
Inductive msgstr := StrNone | StrStr (s : string) | StrSeq (forms : list string).

#[export] Instance msgid_eq_dec : EqDecision msgid.
Proof. solve_decision. Defined.
#[export] Instance msgstr_eq_dec : EqDecision msgstr.
Proof. solve_decision. Defined.

(** Truth value of an id and of a translation. *)
Definition id_truthy (id : msgid) : bool :=
  match id with
  | IdStr s => negb (String.eqb s "")
  | IdSeq _ _ => true
  end.

Definition str_truthy (s : msgstr) : bool :=
  match s with
  | StrNone => false
  | StrStr s => negb (String.eqb s "")
  | StrSeq l => match l with [] => false | _ => true end
  end.

(** [isinstance(x, (list, tuple))]. *)
Definition id_is_seq (id : msgid) : bool :=
  match id with IdSeq _ _ => true | IdStr _ => false end.

Definition str_is_seq (s : msgstr) : bool :=
  match s with StrSeq _ => true | _ => false end.

Definition id_forms (id : msgid) : list string :=
  match id with
  | IdStr s => [s]
  | IdSeq s l => s :: l
  end.

Record Message := Msg {
  msg_id : msgid;
  msg_string : msgstr;
  msg_locations : list (string * Z);
  msg_flags : gset string;
  msg_auto_comments : list string;
  msg_user_comments : list string;
  msg_previous_id : list string;
  msg_lineno : option Z;
  msg_context : option string
}.

(** Modelled from the spec: the property [Message.pluralizable], whose
    body is absent from the source.  Its docstring: whether the message
    is pluralizable, false for [Message('foo')], true for
    [Message(('foo', 'bar'))]. *)
Definition id_pluralizable (id : msgid) : bool := id_is_seq id.
Definition pluralizable (m : Message) : bool := id_pluralizable (msg_id m).

(** Modelled from the spec: the property [Message.python_format], whose
    body is absent from the source.  Its docstring: whether the message
    contains Python-style parameters, true for ['foo %(name)s bar'] and
    for a pair of forms that contain a parameter; the parameters are
    those of [PYTHON_FORMAT]. *)
Definition id_python_format (id : msgid) : bool :=
  existsb PythonFormat.search (id_forms id).
Definition python_format (m : Message) : bool := id_python_format (msg_id m).

(** Modelled from the spec: the property [Message.fuzzy], whose body is
    absent from the source.  Its docstring: whether the translation is
    fuzzy, true for a message created with [flags=['fuzzy']]. *)
Definition fuzzy (m : Message) : bool := bool_decide ("fuzzy" ∈ msg_flags m).

(** The [previous_id] argument: a string or a sequence. *)
Inductive previd := PrevStr (s : string) | PrevSeq (l : list string).

(** [Message.__init__]. *)
Definition Message_init (id : msgid) (string' : msgstr)
    (locations : list (string * Z)) (flags : list string)
    (auto_comments user_comments : list string) (previous_id : previd)
    (lineno : option Z) (context : option string) : Message :=
  let string' :=
    if negb (str_truthy string') && id_pluralizable id
    then StrSeq [""; ""] else string' in
  let flags : gset string := list_to_set flags in
  let flags :=
    if id_truthy id && id_python_format id
    then flags ∪ {["python-format"]}
    else flags ∖ {["python-format"]} in
  {| msg_id := id;
     msg_string := string';
     msg_locations := distinct locations;
     msg_flags := flags;
     msg_auto_comments := distinct auto_comments;
     msg_user_comments := distinct user_comments;
     msg_previous_id :=
       match previous_id with PrevStr s => [s] | PrevSeq l => l end;
     msg_lineno := lineno;
     msg_context := context |}.

(** ** The store of [Message] objects

    Messages are mutable objects shared between a catalog and its callers:
    [objs] maps an object identity to the current state of the message,
    [next] is the next fresh identity. *)
Abbreviation loc := nat.

Record heap := Heap { objs : gmap loc Message; next : loc }.

Definition empty_heap : heap := Heap ∅ 0.

Definition alloc (m : Message) (h : heap) : loc * heap :=
  (next h, Heap (<[next h := m]> (objs h)) (S (next h))).

Definition update_obj (l : loc) (m : Message) (h : heap) : heap :=
  Heap (<[l := m]> (objs h)) (next h).

(** ** Catalog *)

(** A storage key: the singular id, with the context for a
    context-specific message. *)
Abbreviation mkey := (string * option string)%type.

(** An [OrderedDict] from keys to message objects. *)
Abbreviation odict := (list (mkey * loc)).

Fixpoint od_get (k : mkey) (d : odict) : option loc :=
  match d with
  | [] => None
  | (k', l) :: r => if decide (k' = k) then Some l else od_get k r
  end.

Fixpoint od_set (k : mkey) (l : loc) (d : odict) : odict :=
  match d with
  | [] => [(k, l)]
  | (k', l') :: r =>
      if decide (k' = k) then (k, l) :: r else (k', l') :: od_set k l r
  end.

Definition od_del (k : mkey) (d : odict) : odict :=
  filter (fun e => e.1 ≠ k) d.

(** The catalog, restricted to the state that message storage touches.
    [header_text] is the text last assigned through the [mime_headers]
    setter (the header fields are what the email library parses out of
    it); [header_comment] is [_header_comment], [None] before any
    assignment standing for the default header. *)
Record Catalog := Cat {
  _messages : odict;
  obsolete : odict;
  header_text : option string;
  header_comment : option string;
  cat_fuzzy : bool
}.

Definition Catalog_init : Catalog := Cat [] [] None None true.

(** Modelled from the spec: [Catalog._key_for(id, context)], whose body
    is absent from the source.  Its docstring: the key for a message is
    just the singular id even for pluralizable messages, but is a
    [(msgid, msgctxt)] tuple for context-specific messages. *)
Definition _key_for (id : msgid) (context : option string) : mkey :=
  (match id with IdStr s => s | IdSeq s _ => s end, context).

(** ['\n'.join([f'# {c}'.rstrip() for c in message.user_comments])]. *)
Definition comment_lines (user_comments : list string) : string :=
  str (join ["010"%char] (map (fun c => rstrip (chars ("# " ++ c))) user_comments)).

(** [Catalog.__setitem__(id, message)].  [message] is the identity of the
    object passed in; an identity that holds no message stands for an
    object that is not a [Message].  The catalog and the heap are
    returned as they are when the call returns or raises. *)
Definition __setitem__ (id : msgid) (message : loc) (self : Catalog) (h : heap)
    : result unit * Catalog * heap :=
  match objs h !! message with
  | None => (Raise AssertionError, self, h)
  | Some m =>
      let key := _key_for id (msg_context m) in
      match od_get key (_messages self) with
      | Some current =>
          match objs h !! current with
          | None => (Raise AttributeError, self, h)
          | Some c =>
              let upgrade := pluralizable m && negb (pluralizable c) in
              let c' :=
                {| msg_id := if upgrade then msg_id m else msg_id c;
                   msg_string := if upgrade then msg_string m else msg_string c;
                   msg_locations := distinct (msg_locations c ++ msg_locations m);
                   msg_flags := msg_flags c ∪ msg_flags m;
                   msg_auto_comments :=
                     distinct (msg_auto_comments c ++ msg_auto_comments m);
                   msg_user_comments :=
                     distinct (msg_user_comments c ++ msg_user_comments m);
                   msg_previous_id := msg_previous_id c;
                   msg_lineno := msg_lineno c;
                   msg_context := msg_context c |} in
              (Ok (), self, update_obj current c' h)
          end
      | None =>
          if decide (id = IdStr "") then
            match msg_string m with
            | StrStr text =>
                (Ok (),
                 {| _messages := _messages self;
                    obsolete := obsolete self;
                    header_text := Some text;
                    header_comment := Some (comment_lines (msg_user_comments m));
                    cat_fuzzy := fuzzy m |},
                 h)
            | _ => (Raise TypeError, self, h)
            end
          else if id_is_seq id && negb (str_is_seq (msg_string m)) then
            (Raise AssertionError, self, h)
          else
            (Ok (),
             {| _messages := od_set key message (_messages self);
                obsolete := obsolete self;
                header_text := header_text self;
                header_comment := header_comment self;
                cat_fuzzy := cat_fuzzy self |},
             h)
      end
  end.

(** Modelled from the spec: [Catalog.get(id, context)], whose body is
    absent from the source: the message stored under the key of [id] and
    [context], if any. *)
Definition get (id : msgid) (context : option string) (self : Catalog)
    : option loc :=
  od_get (_key_for id context) (_messages self).

(** Modelled from the spec: [Catalog.add(id, string=None, ...)], whose
    body is absent from the source.  Its docstring: the method constructs
    a [Message] with the given arguments and invokes [__setitem__] with
    that object; section 4.3: it returns the stored (possibly merged)
    message. *)
Definition add (id : msgid) (string' : msgstr) (locations : list (string * Z))
    (flags : list string) (auto_comments user_comments : list string)
    (previous_id : previd) (lineno : option Z) (context : option string)
    (self : Catalog) (h : heap) : result (option loc) * Catalog * heap :=
  let '(message, h) :=
    alloc (Message_init id string' locations flags auto_comments user_comments
             previous_id lineno context) h in
  match __setitem__ id message self h with
  | (Ok _, self, h) => (Ok (get id context self), self, h)
  | (Raise e, self, h) => (Raise e, self, h)
  end.

(** [catalog[id] = message] for a message object created on the spot. *)
Definition assign (id : msgid) (m : Message) (self : Catalog) (h : heap)
    : result unit * Catalog * heap :=
  let '(message, h) := alloc m h in __setitem__ id message self h.

(** [Message(id, string, locations=locations)]. *)
Definition Message_at (id : msgid) (string' : msgstr)
    (locations : list (string * Z)) : Message :=
  Message_init id string' locations [] [] [] (PrevSeq []) None None.

(** ** [Catalog.update] *)

Section Update.

(** The similarity ratio of two message ids, each normalized into one
    comparable string: a number between 0 and 1 computed by the
    string-matching library, which is not part of the repository. *)
Variable similarity : msgid -> msgid -> Q.

(** The default [cutoff] of [get_close_matches]. *)
Definition cutoff : Q := 6 # 10.

(** Modelled from the spec: the messages of a catalog that [update] goes
    through, as they stand in the heap, with key and identity. *)
Definition entries (d : odict) (h : heap) : list (mkey * loc * Message) :=
  omap (fun e => m ← objs h !! e.2; Some (e.1, e.2, m)) d.

(** Modelled from the spec: the prior message stored under [key], if any
    (section 4.3, step 2). *)
Definition exact_match (key : mkey) (prior : list (mkey * loc * Message))
    : option (mkey * loc * Message) :=
  List.find (fun e => bool_decide (e.1.1 = key)) prior.

(** Modelled from the spec: the fuzzy search of [update] (section 4.3,
    step 3; [get_close_matches] has no body in the source): the prior
    message closest to [id] among those at or above the threshold, the
    earliest of them when several are equally close. *)
Definition closest_match (id : msgid) (prior : list (mkey * loc * Message))
    : option (mkey * loc * Message) :=
  fold_left
    (fun best e =>
       let score := similarity id (msg_id e.2) in
       if Qle_bool cutoff score then
         match best with
         | None => Some e
         | Some b =>
             if Qle_bool score (similarity id (msg_id b.2)) then best
             else Some e
         end
       else best)
    prior None.

(** Modelled from the spec: the message that [update] stores for a
    template message that matched a prior one (section 4.3, steps 2 and 3):
    the template's id, locations, flags and auto-comments, the prior
    message's translation and user comments; marked fuzzy when the match
    was not exact. *)
Definition carry_over (keep_user_comments is_fuzzy : bool)
    (tm om : Message) : Message :=
  {| msg_id := msg_id tm;
     msg_string := msg_string om;
     msg_locations := msg_locations tm;
     msg_flags :=
       if is_fuzzy then msg_flags tm ∪ {["fuzzy"]} else msg_flags tm;
     msg_auto_comments := msg_auto_comments tm;
     msg_user_comments :=
       if keep_user_comments then msg_user_comments om
       else msg_user_comments tm;
     msg_previous_id := msg_previous_id tm;
     msg_lineno := msg_lineno tm;
     msg_context := msg_context tm |}.

(** Modelled from the spec: the state of the loop of [update] over the
    template: the new live mapping, the keys of the prior messages that
    were matched, and the heap. *)
Record progress := Progress { live : odict; used : list mkey; hp : heap }.

(** Modelled from the spec: the body of the loop of [update], for one
    template message [t]. *)
Definition update_step (no_fuzzy_matching keep_user_comments : bool)
    (prior : list (mkey * loc * Message)) (acc : progress)
    (t : mkey * loc * Message) : progress :=
  let tm := t.2 in
  let key := _key_for (msg_id tm) (msg_context tm) in
  let matched :=
    match exact_match key prior with
    | Some e => Some (false, e)
    | None =>
        if no_fuzzy_matching then None
        else e ← closest_match (msg_id tm) prior; Some (true, e)
    end in
  match matched with
  | Some (is_fuzzy, e) =>
      let '(l, h) :=
        alloc (carry_over keep_user_comments is_fuzzy tm e.2) (hp acc) in
      Progress (od_set key l (live acc)) (e.1.1 :: used acc) h
  | None => Progress (od_set key t.1.2 (live acc)) (used acc) (hp acc)
  end.

(** Modelled from the spec: [Catalog.update(template, ...)], whose body
    is absent from the source.  Section 4.3: each template message, in
    template order, takes over the translation of the prior message with
    the same key, or else (fuzzy matching enabled) of the closest prior
    message at or above the threshold, and is then marked fuzzy; a
    template message without a match is stored as it is; the prior
    messages that no template message matched move to [obsolete] under
    their keys; the header comment changes only on request. *)
Definition update (template : Catalog)
    (no_fuzzy_matching update_header_comment keep_user_comments : bool)
    (self : Catalog) (h : heap) : Catalog * heap :=
  let prior := entries (_messages self) h in
  let acc :=
    fold_left (update_step no_fuzzy_matching keep_user_comments prior)
      (entries (_messages template) h) (Progress [] [] h) in
  let dropped :=
    filter (fun e => e.1.1 ∉ used acc) prior in
  ({| _messages := live acc;
      obsolete :=
        fold_left (fun d e => od_set e.1.1 e.1.2 d) dropped (obsolete self);
      header_text := header_text self;
      header_comment :=
        if update_header_comment then header_comment template
        else header_comment self;
      cat_fuzzy := cat_fuzzy self |},
   hp acc).

End Update.

(** ** The catalogs of the examples *)

(** [catalog.add(id, string, locations=locations)], keeping the catalog
    and the heap. *)
Definition add_at (id : msgid) (string' : msgstr)
    (locations : list (string * Z)) (st : Catalog * heap) : Catalog * heap :=
  let '(_, self, h) :=
    add id string' locations [] [] [] (PrevSeq []) None None st.1 st.2 in
  (self, h).

(** The docstring example of [Catalog.update]: the template ... *)
Definition scenario_template : Catalog * heap :=
  add_at (IdSeq "salad" ["salads"]) StrNone [("util.py", 42%Z)]
    (add_at (IdStr "blue") StrNone [("main.py", 100%Z)]
       (add_at (IdStr "green") StrNone [("main.py", 99%Z)]
          (Catalog_init, empty_heap))).

(** ... and the catalog of translations to update. *)
Definition scenario_catalog : Catalog * heap :=
  add_at (IdSeq "salad" ["salads"]) (StrSeq ["Salat"; "Salate"]) [("util.py", 38%Z)]
    (add_at (IdStr "head") (StrStr "Kopf") [("util.py", 33%Z)]
       (add_at (IdStr "blue") (StrStr "blau") [("main.py", 98%Z)]
          (Catalog_init, scenario_template.2))).

(** The docstring example of [__setitem__]: a catalog holding
    [Message('foo', locations=[('main.py', 1)])], and the heap after the
    second message, [Message('foo', locations=[('utils.py', 5)])], has
    been created as object 1. *)
Definition foo_catalog : Catalog * heap :=
  let '(_, self, h) :=
    assign (IdStr "foo") (Message_at (IdStr "foo") (StrStr "") [("main.py", 1%Z)])
      Catalog_init empty_heap in
  (self, (alloc (Message_at (IdStr "foo") (StrStr "") [("utils.py", 5%Z)]) h).2).

(** A catalog holding the plain message ['salad'] translated ['Salat'],
    and the heap after [Message(('salad', 'salads'), 'Salate')], a
    pluralizable id with a plain string, has been created as object 1. *)
Definition salad_catalog : Catalog * heap :=
  let '(_, self, h) :=
    assign (IdStr "salad") (Message_at (IdStr "salad") (StrStr "Salat") [])
      Catalog_init empty_heap in
  (self, (alloc (Message_at (IdSeq "salad" ["salads"]) (StrStr "Salate") []) h).2).

(** A catalog after [catalog[('apple', 'apples')] = Message(('apple',
    'apples'))] and then [catalog[('apple', '%d apples')] =
    Message(('apple', '%d apples'))]. *)
Definition apple_catalog : Catalog * heap :=
  let '(_, self, h) :=
    assign (IdSeq "apple" ["apples"])
      (Message_at (IdSeq "apple" ["apples"]) (StrStr "") [])
      Catalog_init empty_heap in
  let '(_, self, h) :=
    assign (IdSeq "apple" ["%d apples"])
      (Message_at (IdSeq "apple" ["%d apples"]) (StrStr "") []) self h in
  (self, h).

End Messages.

(* ===================================================================== *)
(** * babel/messages/checkers.py                                          *)
(* ===================================================================== *)

Module Checkers.

Import PyStr PythonFormat Messages.

(** The sets of interchangeable conversion characters. *)
Definition _string_format_compatibilities : list string :=
  ["idu"; "xX"; "fFgG"].

(** The checker [python_format(catalog, message)]; the catalog is not
    consulted. *)
Definition python_format (catalog : option Catalog) (message : Message)
    : result unit :=
  if negb (Messages.python_format message) then Ok ()
  else if negb (str_truthy (msg_string message)) then Ok ()
  else
    let msgid := match msg_id message with IdStr s | IdSeq s _ => s end in
    let msgstr :=
      match msg_string message with
      | StrStr s => s
      | StrSeq (s :: _) => s
      | _ => ""                     (* excluded by the test above *)
      end in
    if negb (search msgid) then Ok ()
    else if negb (search msgstr)
    then Raise (TranslationError "python format string mismatch")
    else Ok ().

Definition _compare_format_chars (a b : ascii) : bool :=
  existsb (fun compat_set => mem a compat_set && mem b compat_set)
    _string_format_compatibilities
  || Ascii.eqb a b.

Definition _collect_placeholders (s : string) : list (option string * ascii) :=
  map (fun m => (name m, conv m)) (finditer s).

(** [_validate_format(format, alternative)]. *)
Definition _validate_format (format alternative : string) : result unit :=
  let format_placeholders := _collect_placeholders format in
  let alternative_placeholders := _collect_placeholders alternative in
  if existsb (fun p => bool_decide (p.1 ≠ None)) format_placeholders
     && existsb (fun p => bool_decide (p.1 = None)) alternative_placeholders
  then Raise (TranslationError "the format strings are of different kinds")
  else if forallb (fun p => _compare_format_chars p.1.2 p.2.2)
            (zip format_placeholders alternative_placeholders)
  then Ok ()
  else Raise (TranslationError "format specifiers are incompatible").

End Checkers.

(* ===================================================================== *)
(** * Notions used in the statements                                      *)
(* ===================================================================== *)

Module NormalizeNotions.

Import PyStr LocaleData.

(** A case conversion of single characters that keeps what the
    normalization looks at. *)
Record neutral (f : ascii -> ascii) : Prop := {
  neutral_space : forall c, is_space (f c) = is_space c;
  neutral_cased : forall c, is_cased (f c) = is_cased c;
  neutral_ascii : forall c, is_ascii (f c) = is_ascii c;
  neutral_underscore : forall c, f c = "_"%char <-> c = "_"%char;
  neutral_hyphen : forall c, f c = "-"%char <-> c = "-"%char;
  neutral_idemp : forall c, f (f c) = f c
}.

Definition plain (s : list ascii) : Prop := Forall (fun c => is_ascii c = true) s.

(** [r] is [s] with some characters case-converted. *)
Definition recased : list ascii -> list ascii -> Prop :=
  Forall2 (fun c c' => exists f, neutral f /\ c' = f c).

(** [title] on plain strings, one character for each character. *)
Fixpoint title_map (prev_cased : bool) (s : list ascii) : list ascii :=
  match s with
  | [] => []
  | c :: r =>
      (if prev_cased then to_lower c else to_upper c) :: title_map (is_cased c) r
  end.

Definition starts_clean (s : list ascii) : Prop :=
  match s with c :: _ => is_space c = false | [] => True end.

Definition trimmed (s : list ascii) : Prop :=
  starts_clean s /\ starts_clean (rev s).

(** The casing step of [normalize_locale] on the parts of the name. *)
Definition recase_parts (parts : list (list ascii)) : list (list ascii) :=
  match parts with
  | [] => []
  | p0 :: rest =>
      lower p0 ::
      match rest with
      | p1 :: tl => (if Nat.eqb (length p1) 4 then title p1 else upper p1) :: tl
      | [] => []
      end
  end.

End NormalizeNotions.

Module LocaleDataNotions.

Import LocaleData.


(** C6 as the specification states it, at a directory [files] and an
    identifier [L]: after a merged load of [L], an unmerged load of [L]
    returns a freshly read, unmerged mapping. *)
Definition flag_keyed_cache_at (files : disk) (L : string) : Prop :=
  forall fuel o st1 fuel' o' st2,
    load fuel files L true empty_store = Some (Ok o, st1) ->
    load fuel' files L false st1 = Some (Ok o', st2) ->
    files !! L = Some (odata o') /\ oid o' <> oid o.




End LocaleDataNotions.

Module MessagesNotions.

Import PythonFormat Messages.


(** The id has a placeholder: it is non-empty and one of its forms
    matches [PYTHON_FORMAT]. *)
Definition has_placeholder (id : msgid) : bool :=
  id_truthy id && id_python_format id.

(** The flag is there exactly when the id has a placeholder. *)
Definition flag_tracks_id (m : Message) : Prop :=
  "python-format" ∈ msg_flags m <-> has_placeholder (msg_id m) = true.

(** The flag is there when the id has a placeholder. *)
Definition flag_covers_id (m : Message) : Prop :=
  has_placeholder (msg_id m) = true -> "python-format" ∈ msg_flags m.

(** Every message stored in the catalog satisfies [P]. *)
Definition stored (P : Message -> Prop) (self : Catalog) (h : heap) : Prop :=
  forall k l m,
    od_get k (_messages self) = Some l -> objs h !! l = Some m -> P m.

(** Two similarities agree on a template message: they are consulted only
    when no prior message has its key, and then choose the same prior
    message. *)
Definition same_fuzzy_match (similarity similarity' : msgid -> msgid -> Q)
    (prior : list (mkey * loc * Message)) (t : mkey * loc * Message) : Prop :=
  exact_match (_key_for (msg_id t.2) (msg_context t.2)) prior = None ->
  closest_match similarity (msg_id t.2) prior
  = closest_match similarity' (msg_id t.2) prior.

(** The first form of an id and of a translation, which the checker
    compares. *)
Definition first_id (m : Message) : string :=
  match msg_id m with IdStr s | IdSeq s _ => s end.

Definition first_string (m : Message) : string :=
  match msg_string m with
  | StrStr s => s
  | StrSeq (s :: _) => s
  | _ => ""
  end.

End MessagesNotions.

(* ===================================================================== *)
(** * Properties of [normalize_locale]                                    *)
(* ===================================================================== *)

Module NormalizeProps.

Import PyStr LocaleData NormalizeNotions.

(** ** Characters *)

Ltac by_cases c :=
  destruct c as [[] [] [] [] [] [] [] []]; vm_compute;
  first [reflexivity | split; congruence].

Lemma to_lower_neutral : neutral to_lower.
Proof. split; intros c; by_cases c. Qed.

Lemma to_upper_neutral : neutral to_upper.
Proof. split; intros c; by_cases c. Qed.

Lemma id_neutral : neutral (fun c => c).
Proof. by split. Qed.

Lemma ascii_not_sharp_s c : is_ascii c = true -> Ascii.eqb c sharp_s = false.
Proof. destruct c as [[] [] [] [] [] [] [] []]; vm_compute; congruence. Qed.

Lemma recased_refl s : recased s s.
Proof. induction s; constructor; [exists (fun c => c); split; [apply id_neutral|done] | done]. Qed.

Lemma recased_map f s : neutral f -> recased s (map f s).
Proof. intros Hf. induction s; constructor; [by exists f | done]. Qed.

Lemma recased_length s r : recased s r -> length r = length s.
Proof. intros H. symmetry. by eapply Forall2_length. Qed.

Lemma recased_app s1 s2 r1 r2 :
  recased s1 r1 -> recased s2 r2 -> recased (s1 ++ s2) (r1 ++ r2).
Proof. apply Forall2_app. Qed.

Lemma recased_rev s r : recased s r -> recased (rev s) (rev r).
Proof.
  induction 1 as [|c c' s r Hc _ IH]; simpl; [constructor|].
  apply recased_app; [done|]. by constructor.
Qed.

Lemma recased_plain s r : recased s r -> plain s -> plain r.
Proof.
  induction 1 as [|c c' s r (f & Hf & ->) _ IH]; intros Hs; [constructor|].
  apply Forall_cons in Hs as [Hc Hs]. constructor; [|by apply IH].
  by rewrite (neutral_ascii f Hf).
Qed.

Lemma recased_without (x : ascii) s r :
  (forall f, neutral f -> forall c, f c = x <-> c = x) ->
  recased s r -> Forall (fun c => c <> x) s -> Forall (fun c => c <> x) r.
Proof.
  intros Hx. induction 1 as [|c c' s r (f & Hf & ->) _ IH]; intros Hs; [constructor|].
  apply Forall_cons in Hs as [Hc Hs]. constructor; [|by apply IH].
  by rewrite (Hx f Hf).
Qed.

Lemma lower_map s : lower s = map to_lower s.
Proof. unfold lower, lower_char. induction s; simpl; [done | by f_equal]. Qed.

Lemma upper_map s : plain s -> upper s = map to_upper s.
Proof.
  unfold upper, upper_char. induction 1 as [|c s Hc _ IH]; simpl; [done|].
  by rewrite (ascii_not_sharp_s c Hc), IH.
Qed.

Lemma title_from_map s : plain s -> forall p, title_from p s = title_map p s.
Proof.
  induction 1 as [|c s Hc _ IH]; intros p; simpl; [done|].
  unfold lower_char, title_char. rewrite (ascii_not_sharp_s c Hc), IH.
  by destruct p.
Qed.

Lemma title_map_recased s : forall p, recased s (title_map p s).
Proof.
  induction s as [|c s IH]; intros p; simpl; [constructor|].
  constructor; [|apply IH].
  destruct p; [exists to_lower | exists to_upper]; split;
    auto using to_lower_neutral, to_upper_neutral.
Qed.

Lemma title_map_idemp s : forall p, title_map p (title_map p s) = title_map p s.
Proof.
  induction s as [|c s IH]; intros p; simpl; [done|].
  destruct p.
  - rewrite (neutral_idemp _ to_lower_neutral), (neutral_cased _ to_lower_neutral).
    by rewrite IH.
  - rewrite (neutral_idemp _ to_upper_neutral), (neutral_cased _ to_upper_neutral).
    by rewrite IH.
Qed.

Lemma lower_recased s : recased s (lower s).
Proof. rewrite lower_map. apply recased_map, to_lower_neutral. Qed.

Lemma upper_recased s : plain s -> recased s (upper s).
Proof. intros. rewrite upper_map by done. apply recased_map, to_upper_neutral. Qed.

Lemma title_recased s : plain s -> recased s (title s).
Proof. intros. unfold title. rewrite title_from_map by done. apply title_map_recased. Qed.

Lemma lower_idemp s : lower (lower s) = lower s.
Proof.
  rewrite !lower_map, map_map. apply map_ext.
  apply (neutral_idemp _ to_lower_neutral).
Qed.

Lemma upper_idemp s : plain s -> upper (upper s) = upper s.
Proof.
  intros Hs. rewrite (upper_map s Hs), upper_map.
  - rewrite map_map. apply map_ext. apply (neutral_idemp _ to_upper_neutral).
  - eapply recased_plain; [|done]. apply recased_map, to_upper_neutral.
Qed.

Lemma title_idemp s : plain s -> title (title s) = title s.
Proof.
  intros Hs. unfold title. rewrite (title_from_map s Hs), title_from_map.
  - apply title_map_idemp.
  - eapply recased_plain; [|done]. apply title_map_recased.
Qed.

(** ** [strip] *)

Lemma lstrip_clean s : starts_clean (lstrip s).
Proof.
  induction s as [|c s IH]; simpl; [done|].
  by destruct (is_space c) eqn:E.
Qed.

Lemma lstrip_id s : starts_clean s -> lstrip s = s.
Proof. destruct s as [|c s]; simpl; [done|]. by intros ->. Qed.

Lemma lstrip_suffix s : exists pre, s = (pre ++ lstrip s)%list.
Proof.
  induction s as [|c s [pre IH]]; simpl; [by exists []|].
  destruct (is_space c); [|by exists []].
  exists (c :: pre). simpl. by f_equal.
Qed.

Lemma starts_clean_app_l (a b : list ascii) :
  a <> [] -> starts_clean (a ++ b) -> starts_clean a.
Proof. by destruct a. Qed.

Lemma strip_trimmed s : trimmed (strip s).
Proof.
  unfold strip, rstrip, trimmed. rewrite rev_involutive.
  split; [|apply lstrip_clean].
  destruct (lstrip_suffix (rev (lstrip s))) as [pre Hpre].
  destruct (lstrip (rev (lstrip s))) as [|c z] eqn:Hz; [done|].
  apply (starts_clean_app_l _ (rev pre)).
  - simpl. by destruct (rev z).
  - rewrite <- rev_app_distr, <- Hpre, rev_involutive. apply lstrip_clean.
Qed.

Lemma trimmed_strip s : trimmed s -> strip s = s.
Proof.
  intros [Hl Hr]. unfold strip, rstrip.
  by rewrite (lstrip_id s Hl), (lstrip_id _ Hr), rev_involutive.
Qed.

Lemma recased_starts_clean s r : recased s r -> starts_clean s -> starts_clean r.
Proof.
  destruct 1 as [|c c' s r (f & Hf & ->) _]; [done|]. simpl.
  by rewrite (neutral_space f Hf).
Qed.

Lemma recased_trimmed s r : recased s r -> trimmed s -> trimmed r.
Proof.
  intros H [Hl Hr]. split.
  - by eapply recased_starts_clean.
  - eapply recased_starts_clean; [by apply recased_rev|done].
Qed.

(** ** [replace], [split] and [join] *)

Lemma replace_without (a b : ascii) s : a <> b -> Forall (fun c => c <> a) (replace a b s).
Proof.
  intros Hab. unfold replace. induction s as [|c s IH]; simpl; constructor; [|done].
  destruct (Ascii.eqb c a) eqn:E; [congruence|]. by apply Ascii.eqb_neq.
Qed.

Lemma replace_id (a b : ascii) s : Forall (fun c => c <> a) s -> replace a b s = s.
Proof.
  unfold replace. induction 1 as [|c s Hc _ IH]; simpl; [done|].
  apply Ascii.eqb_neq in Hc. by rewrite Hc, IH.
Qed.

Lemma replace_recased_trimmed (a b : ascii) s :
  is_space a = false -> is_space b = false -> trimmed s -> trimmed (replace a b s).
Proof.
  intros Ha Hb.
  assert (Hhead : forall t, starts_clean t -> starts_clean (replace a b t)).
  { intros [|c t]; simpl; [done|]. destruct (Ascii.eqb c a); [by rewrite Hb | done]. }
  intros [Hl Hr]. split; [by apply Hhead|].
  unfold replace. rewrite <- map_rev. by apply Hhead.
Qed.

Lemma split_nonempty sep s : split sep s <> [].
Proof.
  destruct s as [|c s]; simpl; [done|].
  destruct (Ascii.eqb c sep); [done|]. by destruct (split sep s).
Qed.

Lemma split_without sep s : Forall (Forall (fun c => c <> sep)) (split sep s).
Proof.
  induction s as [|c s IH]; simpl; [by repeat constructor|].
  destruct (Ascii.eqb c sep) eqn:E; [by constructor|].
  apply Ascii.eqb_neq in E.
  destruct (split sep s) as [|p ps]; [by repeat constructor|].
  apply Forall_cons in IH as [Hp Hps]. by repeat constructor.
Qed.

Lemma join_split sep s : join [sep] (split sep s) = s.
Proof.
  induction s as [|c s IH]; simpl; [done|].
  destruct (Ascii.eqb c sep) eqn:E.
  - apply Ascii.eqb_eq in E as ->.
    pose proof (split_nonempty sep s).
    destruct (split sep s) as [|p ps]; [done|]. simpl in *. by rewrite IH.
  - pose proof (split_nonempty sep s).
    destruct (split sep s) as [|p ps]; [done|].
    destruct ps; simpl in *; by rewrite <- IH.
Qed.

Lemma split_join sep ps :
  ps <> [] -> Forall (Forall (fun c => c <> sep)) ps ->
  split sep (join [sep] ps) = ps.
Proof.
  induction ps as [|p ps IH]; intros Hne Hall; [done|].
  apply Forall_cons in Hall as [Hp Hps].
  assert (Hpre : forall q rest,
    Forall (fun c => c <> sep) q ->
    split sep (q ++ sep :: rest) = q :: split sep rest).
  { induction 1 as [|c q Hc _ IHq]; simpl.
    - by rewrite Ascii.eqb_refl.
    - apply Ascii.eqb_neq in Hc. by rewrite Hc, IHq. }
  assert (Hlast : forall q, Forall (fun c => c <> sep) q -> split sep q = [q]).
  { induction 1 as [|c q Hc _ IHq]; simpl; [done|].
    apply Ascii.eqb_neq in Hc. by rewrite Hc, IHq. }
  destruct ps as [|p' ps]; simpl.
  - by apply Hlast.
  - rewrite Hpre by done. f_equal. by apply IH.
Qed.

Lemma join_recased sep ps ps' :
  Forall2 recased ps ps' -> recased (join sep ps) (join sep ps').
Proof.
  induction 1 as [|p p' ps ps' Hp Hps IH]; simpl; [constructor|].
  destruct Hps as [|q q' ps ps' Hq Hps]; [done|].
  apply recased_app; [done|]. apply recased_app; [apply recased_refl | done].
Qed.

(** ** Idempotence *)

Lemma normalize_chars_eq name :
  normalize_chars name
  = match replace "-" "_" (strip name) with
    | [] => None
    | s => Some (join ["_"%char] (recase_parts (split "_" s)))
    end.
Proof.
  unfold normalize_chars.
  destruct (replace "-" "_" (strip name)) as [|c s] eqn:E; [done|].
  pose proof (split_nonempty "_" (c :: s)).
  by destruct (split "_" (c :: s)).
Qed.

Lemma recase_parts_recased parts :
  Forall plain parts -> Forall2 recased parts (recase_parts parts).
Proof.
  destruct 1 as [|p0 rest H0 Hrest]; simpl; [constructor|].
  constructor; [apply lower_recased|].
  destruct Hrest as [|p1 tl H1 Htl]; [constructor|].
  constructor.
  - destruct (Nat.eqb (length p1) 4); [by apply title_recased | by apply upper_recased].
  - clear. induction tl; constructor; [apply recased_refl | done].
Qed.

Lemma recase_parts_idemp parts :
  Forall plain parts -> recase_parts (recase_parts parts) = recase_parts parts.
Proof.
  destruct 1 as [|p0 rest H0 Hrest]; simpl; [done|].
  rewrite lower_idemp. f_equal.
  destruct Hrest as [|p1 tl H1 Htl]; [done|]. f_equal.
  destruct (Nat.eqb (length p1) 4) eqn:E.
  - rewrite (recased_length _ _ (title_recased p1 H1)), E. by apply title_idemp.
  - rewrite (recased_length _ _ (upper_recased p1 H1)), E. by apply upper_idemp.
Qed.

Lemma plain_parts sep s : plain s -> Forall plain (split sep s).
Proof.
  induction 1 as [|c s Hc _ IH]; simpl; [by repeat constructor|].
  destruct (Ascii.eqb c sep); [by repeat constructor|].
  destruct (split sep s) as [|p ps]; [by repeat constructor|].
  apply Forall_cons in IH as [Hp Hps]. by repeat constructor.
Qed.

Lemma lstrip_plain s : plain s -> plain (lstrip s).
Proof.
  induction 1 as [|c s Hc Hs IH]; simpl; [constructor|].
  destruct (is_space c); [done | by constructor].
Qed.

Lemma strip_plain s : plain s -> plain (strip s).
Proof.
  intros Hs. unfold strip, rstrip, plain.
  apply Forall_rev, lstrip_plain, Forall_rev. by apply lstrip_plain.
Qed.

Lemma replace_plain (a b : ascii) s : is_ascii b = true -> plain s -> plain (replace a b s).
Proof.
  intros Hb. unfold replace. induction 1 as [|c s Hc _ IH]; simpl; constructor; [|done].
  by destruct (Ascii.eqb c a).
Qed.

(** On a name of code points below 128, normalizing the result of
    [normalize_locale] changes nothing. *)
Lemma normalize_chars_idempotent name r :
  plain name -> normalize_chars name = Some r -> normalize_chars r = Some r.
Proof.
  intros Hplain. rewrite normalize_chars_eq.
  set (s := replace "-" "_" (strip name)).
  assert (Hs_plain : plain s) by (by apply replace_plain, strip_plain).
  assert (Hs_trim : trimmed s) by (by apply replace_recased_trimmed, strip_trimmed).
  assert (Hs_hyphen : Forall (fun c => c <> "-"%char) s) by (by apply replace_without).
  destruct s as [|c0 s0] eqn:Es; [done|]. rewrite <- Es in *.
  intros [= <-].
  set (parts := split "_" s).
  assert (Hparts : Forall plain parts) by (by apply plain_parts).
  pose proof (recase_parts_recased parts Hparts) as Hrec.
  assert (Hr : recased s (join ["_"%char] (recase_parts parts))).
  { rewrite <- (join_split "_" s) at 1. by apply join_recased. }
  rewrite normalize_chars_eq.
  rewrite (trimmed_strip _ (recased_trimmed _ _ Hr Hs_trim)).
  rewrite replace_id.
  2:{ eapply recased_without; [|exact Hr|exact Hs_hyphen].
      intros f Hf. apply (neutral_hyphen f Hf). }
  destruct (join ["_"%char] (recase_parts parts)) as [|c1 r1] eqn:Er.
  { apply recased_length in Hr. rewrite Es in Hr. done. }
  rewrite <- Er. rewrite split_join.
  - by rewrite recase_parts_idemp.
  - intros Hnil. apply Forall2_length in Hrec. rewrite Hnil in Hrec.
    pose proof (split_nonempty "_" s). by destruct parts.
  - pose proof (split_without "_" s) as Hno. fold parts in Hno.
    clear -Hrec Hno. induction Hrec as [|p p' ps ps' Hp _ IH]; [constructor|].
    apply Forall_cons in Hno as [Hp0 Hps]. constructor; [|by apply IH].
    eapply recased_without; [|exact Hp|exact Hp0].
    intros f Hf. apply (neutral_underscore f Hf).
Qed.

Lemma normalize_locale_idempotent name r :
  plain (chars name) ->
  normalize_locale name = Some r -> normalize_locale r = Some r.
Proof.
  unfold normalize_locale, chars, str. intros Hplain Hn.
  destruct (normalize_chars _) as [r0|] eqn:E; [|done].
  injection Hn as <-.
  rewrite String.list_ascii_of_string_of_list_ascii.
  by rewrite (normalize_chars_idempotent _ _ Hplain E).
Qed.

(** Outside that alphabet the casing can change the length of the second
    subtag, and with it the branch taken on the next call: the three
    characters U+00DF, [a], [b] are upper-cased to the four of [SSAB],
    which the next call title-cases. *)
Lemma normalize_sharp_s_twice :
  normalize_chars (chars "de_" ++ sharp_s :: chars "ab") = Some (chars "de_SSAB")
  /\ normalize_chars (chars "de_SSAB") = Some (chars "de_Ssab").
Proof. split; reflexivity. Qed.

(** C5 (the code at the failing input).  Only the first two subtags are
    re-cased: the region in third position keeps its lower case. *)
Theorem normalize_leaves_third_subtag :
  normalize_locale "zh-hans-cn" = Some "zh_Hans_cn"
  /\ normalize_locale "zh_Hans_cn" = Some "zh_Hans_cn"
  /\ normalize_locale "en-us" = Some "en_US".
Proof. repeat split; reflexivity. Qed.

End NormalizeProps.

(* ===================================================================== *)
(** * Properties of the locale data store                                 *)
(* ===================================================================== *)

Module LocaleDataProps.

Import LocaleData LocaleDataNotions.

(** ** Dictionaries *)



(** ** [merge] *)

Lemma merge_nil dict1 : merge dict1 [] = dict1.
Proof. reflexivity. Qed.




(** The doctest of [merge]: merging [{1: 'Foo', 2: 'Bar'}] into
    [{1: 'foo', 3: 'baz'}] (the doctest prints the items sorted; the new
    key goes last). *)
Example merge_doctest :
  merge [(KInt 1, VStr "foo"); (KInt 3, VStr "baz")]
        [(KInt 1, VStr "Foo"); (KInt 2, VStr "Bar")]
  = [(KInt 1, VStr "Foo"); (KInt 3, VStr "baz"); (KInt 2, VStr "Bar")].
Proof. reflexivity. Qed.




(** ** [load] *)

Lemma load_hit fuel files name flag st o :
  cache st !! name = Some o ->
  load (S fuel) files name flag st = Some (Ok o, st).
Proof. intros H. simpl. by rewrite H. Qed.


(** A call that returns a mapping has it in the cache under its name. *)
Lemma load_caches_result fuel files name flag st o st' :
  load fuel files name flag st = Some (Ok o, st') ->
  cache st' !! name = Some o.
Proof.
  destruct fuel as [|fuel]; [done|]. simpl.
  destruct (cache st !! name) as [o'|] eqn:Hc; [intros; by simplify_eq|].
  destruct (files !! name) as [contents|]; [|done].
  assert (Hparent : forall p,
    match load fuel files p true (Store (cache st) (S (next_oid st))) with
    | Some (Ok parent_data, st0) =>
        Some (Ok (Obj (next_oid st) (merge contents (odata parent_data))),
              Store (<[name:=Obj (next_oid st) (merge contents (odata parent_data))]>
                       (cache st0)) (next_oid st0))
    | Some (Raise e, st0) => Some (Raise e, st0)
    | None => None
    end = Some (Ok o, st') -> cache st' !! name = Some o).
  { intros p Hp.
    destruct (load fuel files p true _) as [[[po|e] st0]|]; [| done |done].
    simplify_eq. simpl. by rewrite lookup_insert_eq. }
  destruct flag.
  - destruct (dict_get (KStr "parent") contents) as [parent|]; [|by apply Hparent].
    destruct (parent_request parent); [| by apply Hparent | done].
    intros; simplify_eq. simpl. by rewrite lookup_insert_eq.
  - intros; simplify_eq. simpl. by rewrite lookup_insert_eq.
Qed.


(** With merging, a locale whose ['parent'] names another locale gets the
    parent's loaded mapping merged into its own file contents, the
    parent's mapping being the second argument of [merge]. *)
Lemma load_merges_parent_into_own fuel files name st contents p po st1 :
  cache st !! name = None ->
  files !! name = Some contents ->
  dict_get (KStr "parent") contents = Some (VStr p) ->
  p <> "" ->
  load fuel files p true (Store (cache st) (S (next_oid st))) = Some (Ok po, st1) ->
  exists st2,
    load (S fuel) files name true st
    = Some (Ok (Obj (next_oid st) (merge contents (odata po))), st2).
Proof.
  intros Hc Hf Hp Hne Hrec. simpl. rewrite Hc, Hf, Hp. simpl.
  rewrite decide_False by done. rewrite Hrec. eauto.
Qed.

(** A [root] file without a ['parent'] key makes [load('root')] call
    itself on the same name with the cache unchanged: no depth suffices. *)
Lemma load_root_without_parent_diverges files contents : forall fuel st,
  cache st !! "root" = None ->
  files !! "root" = Some contents ->
  dict_get (KStr "parent") contents = None ->
  load fuel files "root" true st = None.
Proof.
  induction fuel as [|fuel IH]; intros st Hc Hf Hp; [done|].
  simpl. rewrite Hc, Hf, Hp. by rewrite IH.
Qed.

(** C1 (the code at the failing input).  Loading [en] from the example
    directory, where [greeting] is defined by [en] and by its parent
    [root]: the loaded mapping holds the value of [root], the ancestor,
    under [greeting] and under [months.1]; the key that only [root] has
    comes from [root]. *)
Theorem load_prefers_ancestor_value :
  exists o st,
    load 2 example_files "en" true empty_store = Some (Ok o, st)
    /\ dict_get (KStr "greeting") example_en = Some (VStr "hello (en)")
    /\ dict_get (KStr "greeting") example_root = Some (VStr "hello (root)")
    /\ dict_get (KStr "greeting") (odata o) = Some (VStr "hello (root)")
    /\ walk [KStr "months"; KStr "1"] (VDict (odata o)) = Some (VStr "M01")
    /\ dict_get (KStr "only_root") (odata o) = Some (VStr "r").
Proof. do 2 eexists. split; [vm_compute; reflexivity|]. by vm_compute. Qed.

(** ** The cache is keyed by the identifier alone *)

(** C6 (counterexample).  On the example directory the unmerged load of
    [en] that follows a merged one is answered with the merged mapping. *)
Lemma load_false_after_true_returns_merged :
  ~ flag_keyed_cache_at example_files "en".
Proof.
  intros H.
  destruct (load 2 example_files "en" true empty_store) as [[[o|] st1]|] eqn:E1;
    try (vm_compute in E1; discriminate).
  destruct (load 1 example_files "en" false st1) as [[[o'|] st2]|] eqn:E2;
    try (vm_compute in E1; injection E1 as <- <-; vm_compute in E2; discriminate).
  destruct (H _ _ _ _ _ _ E1 E2) as [_ Hoid].
  vm_compute in E1. injection E1 as <- <-.
  vm_compute in E2. injection E2 as <- <-. by apply Hoid.
Qed.

(** C6 (amended).  Whether a call is served from the cache depends on the
    identifier only: with the identifier in the cache the cached object is
    returned and nothing else happens, whatever the flag; with the
    identifier absent the file is read, the object returned is a new one,
    and an unmerged load returns the contents of the file. *)
Theorem load_cache_keyed_by_name fuel files name flag st r st'
    (Hload : load (S fuel) files name flag st = Some (r, st')) :
  match cache st !! name with
  | Some o => r = Ok o /\ st' = st
  | None =>
      match r with
      | Ok o =>
          oid o = next_oid st
          /\ (flag = false -> files !! name = Some (odata o))
      | Raise _ => True
      end
  end.
Proof.
  simpl in Hload.
  destruct (cache st !! name) as [o|]; [by simplify_eq|].
  destruct r as [o|e]; [|done].
  destruct (files !! name) as [contents|]; [|done].
  assert (Hparent : forall p,
    match load fuel files p true (Store (cache st) (S (next_oid st))) with
    | Some (Ok parent_data, st0) =>
        Some (Ok (Obj (next_oid st) (merge contents (odata parent_data))),
              Store (<[name:=Obj (next_oid st) (merge contents (odata parent_data))]>
                       (cache st0)) (next_oid st0))
    | Some (Raise e, st0) => Some (Raise e, st0)
    | None => None
    end = Some (Ok o, st') -> oid o = next_oid st).
  { intros p Hp.
    destruct (load fuel files p true _) as [[[po|e] st0]|]; by simplify_eq. }
  destruct flag.
  - split; [|done].
    destruct (dict_get (KStr "parent") contents) as [parent|]; [|by eapply Hparent].
    destruct (parent_request parent); [| by eapply Hparent | done].
    by simplify_eq.
  - by simplify_eq.
Qed.

Lemma load_cache_keyed_by_name_witness :
  match load 2 example_files "en" true empty_store with
  | Some (Ok o, st) =>
      load 1 example_files "en" false st = Some (Ok o, st)
      /\ match cache st !! "en" with
         | Some o' => @Ok obj o = Ok o' /\ st = st
         | None => False
         end
  | _ => False
  end.
Proof.
  destruct (load 2 example_files "en" true empty_store) as [[[o|] st]|] eqn:E;
    try (vm_compute in E; discriminate).
  assert (Hhit : load 1 example_files "en" false st = Some (Ok o, st)).
  { apply load_hit. eapply load_caches_result, E. }
  split; [exact Hhit|].
  pose proof (load_cache_keyed_by_name 0 example_files "en" false st (Ok o) st Hhit) as H.
  rewrite (load_caches_result _ _ _ _ _ _ _ E) in *. exact H.
Defined.

(** ** Identity of the cached object *)



(** ** Reading through a [LocaleDataDict] *)







End LocaleDataProps.

(* ===================================================================== *)
(** * Properties of [distinct]                                            *)
(* ===================================================================== *)

Module UtilProps.

Import Util.

Section Distinct.

Context {A : Type} `{EqDecision A}.

Implicit Types (l seen : list A).

(** The doctests of [distinct]. *)
Example distinct_doctest_numbers :
  distinct [1; 2; 1; 3; 4; 4] = [1; 2; 3; 4].
Proof. reflexivity. Qed.

Example distinct_doctest_foobar :
  distinct (PyStr.chars "foobar") = PyStr.chars "fobar".
Proof. reflexivity. Qed.

(** Only the members of [seen] matter, not their order or number. *)
Lemma distinct_from_ext l : forall seen seen',
  (forall x, x ∈ seen <-> x ∈ seen') ->
  distinct_from seen l = distinct_from seen' l.
Proof.
  induction l as [|a l IH]; intros seen seen' Hext; [done|]. simpl.
  destruct (decide (a ∈ seen)) as [Hin|Hnin].
  - rewrite decide_True by (by apply Hext). by apply IH.
  - rewrite decide_False by (by rewrite <- Hext). f_equal. apply IH.
    intros x. rewrite !elem_of_cons. by rewrite Hext.
Qed.

(** The generator yields the items not yet seen, each once. *)
Lemma distinct_from_filter l : forall seen,
  distinct_from seen l = filter (fun x => x ∉ seen) (distinct_from [] l).
Proof.
  induction l as [|a l IH]; intros seen; [done|]. simpl.
  destruct (decide (a ∈ [])) as [Hnil|_]; [by apply not_elem_of_nil in Hnil|].
  rewrite filter_cons. destruct (decide (a ∈ seen)) as [Hin|Hnin].
  - rewrite decide_False by tauto.
    rewrite (IH seen), (IH [a]), list_filter_filter.
    apply list_filter_iff. intros x. rewrite list_elem_of_singleton.
    split; [|tauto]. intros Hx. split; [done|]. by intros ->.
  - rewrite decide_True by done. f_equal.
    rewrite (IH (a :: seen)), (IH [a]), list_filter_filter.
    apply list_filter_iff. intros x.
    rewrite elem_of_cons, list_elem_of_singleton. tauto.
Qed.

Lemma distinct_from_app l1 l2 : forall seen,
  distinct_from seen (l1 ++ l2)
  = (distinct_from seen l1 ++ distinct_from (l1 ++ seen) l2)%list.
Proof.
  induction l1 as [|a l1 IH]; intros seen; [done|]. simpl.
  destruct (decide (a ∈ seen)) as [Hin|Hnin].
  - rewrite IH. f_equal. apply distinct_from_ext. intros x.
    rewrite ?elem_of_cons, ?elem_of_app.
    destruct (decide (x = a)) as [->|]; tauto.
  - rewrite IH. simpl. do 2 f_equal. apply distinct_from_ext. intros x.
    rewrite ?elem_of_cons, ?elem_of_app, ?elem_of_cons. tauto.
Qed.

Lemma distinct_from_elem x l : forall seen,
  x ∈ distinct_from seen l <-> x ∈ l /\ x ∉ seen.
Proof.
  induction l as [|a l IH]; intros seen; simpl.
  - rewrite elem_of_nil. tauto.
  - destruct (decide (a ∈ seen)) as [Hin|Hnin].
    + rewrite IH, elem_of_cons. split; [tauto|].
      intros [[->|?] ?]; tauto.
    + rewrite elem_of_cons, IH, !elem_of_cons.
      split; [intros [->|?]; tauto|].
      intros [[->|?] ?]; [tauto|].
      destruct (decide (x = a)); tauto.
Qed.

Lemma distinct_from_NoDup l : forall seen, NoDup (distinct_from seen l).
Proof.
  induction l as [|a l IH]; intros seen; simpl; [constructor|].
  destruct (decide (a ∈ seen)); [apply IH|].
  constructor; [|apply IH]. rewrite distinct_from_elem, elem_of_cons. tauto.
Qed.

(** [distinct] keeps every item, once. *)
Lemma distinct_elem x l : x ∈ distinct l <-> x ∈ l.
Proof.
  unfold distinct. rewrite distinct_from_elem.
  pose proof (not_elem_of_nil x). tauto.
Qed.

Lemma distinct_NoDup l : NoDup (distinct l).
Proof. apply distinct_from_NoDup. Qed.

(** A list without repetition is left as it is. *)
Lemma distinct_from_id l : forall seen,
  NoDup l -> (forall x, x ∈ l -> x ∉ seen) -> distinct_from seen l = l.
Proof.
  induction l as [|a l IH]; intros seen Hnd Hdisj; [done|]. simpl.
  apply NoDup_cons in Hnd as [Ha Hnd].
  rewrite decide_False by (apply Hdisj; left). f_equal.
  apply IH; [done|]. intros x Hx. rewrite elem_of_cons.
  intros [->|Hs]; [done|]. by apply (Hdisj x); [right|].
Qed.

Lemma distinct_id l : NoDup l -> distinct l = l.
Proof.
  intros. apply distinct_from_id; [done|]. intros; apply not_elem_of_nil.
Qed.

Lemma distinct_idemp l : distinct (distinct l) = distinct l.
Proof. apply distinct_id, distinct_NoDup. Qed.

(** The union of an already distinct list with new items: the old items
    stay where they are, and the new items that were not there follow
    in their own order, each at its first occurrence. *)
Lemma distinct_app (old new : list A) :
  NoDup old ->
  distinct (old ++ new)
  = (old ++ filter (fun x => x ∉ old) (distinct new))%list.
Proof.
  intros Hnd. unfold distinct. rewrite distinct_from_app. f_equal.
  - by apply distinct_id.
  - rewrite distinct_from_filter. apply list_filter_iff.
    intros x. rewrite elem_of_app. pose proof (not_elem_of_nil x). tauto.
Qed.

End Distinct.

End UtilProps.

(* ===================================================================== *)
(** * Properties of the message catalog                                   *)
(* ===================================================================== *)

Module MessagesProps.

Import Util UtilProps Messages MessagesNotions.

Lemma od_get_set_eq k l d : od_get k (od_set k l d) = Some l.
Proof.
  induction d as [|[k' l'] r IH]; simpl.
  - by rewrite decide_True.
  - destruct (decide (k' = k)) as [->|]; simpl;
      [by rewrite decide_True | by rewrite decide_False].
Qed.

Lemma od_get_set_ne k k' l d :
  k <> k' -> od_get k' (od_set k l d) = od_get k' d.
Proof.
  intros Hne. induction d as [|[k0 l0] r IH]; simpl.
  - by rewrite decide_False.
  - destruct (decide (k0 = k)) as [->|]; simpl.
    + by rewrite !decide_False.
    + destruct (decide (k0 = k')); [done | apply IH].
Qed.

(** ** Storing under a key that already has an entry *)

(** C3.  When [catalog[id] = message] finds an entry [current] under the
    key, the call returns with the catalog's mapping as it was, so
    [current] is still the object stored under the key, and with that
    object updated in the heap: its locations, auto-comments and user
    comments are the [distinct] of the old list followed by the new one
    (for old lists without repetition: the old list, then the new items
    not already there, in order of first occurrence), its flags the union,
    its id and string those of [message] when [message] is pluralizable
    and the entry was not, and its own otherwise.  No other object
    changes. *)
Theorem setitem_merges_in_place id message self h m current c
    (Hm : objs h !! message = Some m)
    (Hkey : od_get (_key_for id (msg_context m)) (_messages self) = Some current)
    (Hc : objs h !! current = Some c) :
  exists c',
    __setitem__ id message self h = (Ok (), self, update_obj current c' h)
    /\ objs (update_obj current c' h) !! current = Some c'
    /\ (forall l, l <> current -> objs (update_obj current c' h) !! l = objs h !! l)
    /\ msg_locations c' = distinct (msg_locations c ++ msg_locations m)
    /\ msg_auto_comments c' = distinct (msg_auto_comments c ++ msg_auto_comments m)
    /\ msg_user_comments c' = distinct (msg_user_comments c ++ msg_user_comments m)
    /\ (NoDup (msg_locations c) ->
        msg_locations c'
        = (msg_locations c
           ++ filter (fun x => x ∉ msg_locations c) (distinct (msg_locations m)))%list)
    /\ msg_flags c' = msg_flags c ∪ msg_flags m
    /\ (if pluralizable m && negb (pluralizable c)
        then msg_id c' = msg_id m /\ msg_string c' = msg_string m
        else msg_id c' = msg_id c /\ msg_string c' = msg_string c).
Proof.
  unfold __setitem__. rewrite Hm, Hkey, Hc. eexists. split; [reflexivity|].
  simpl. split; [by rewrite lookup_insert_eq|].
  split; [intros l Hl; by rewrite lookup_insert_ne|].
  do 3 (split; [reflexivity|]).
  split; [apply distinct_app|]. split; [reflexivity|].
  by destruct (pluralizable m && negb (pluralizable c)).
Qed.

(** The docstring example: ['foo'] stored with the location
    [('main.py', 1)] and then again with [('utils.py', 5)]. *)
Lemma setitem_merges_in_place_witness :
  exists c',
    __setitem__ (IdStr "foo") 1 foo_catalog.1 foo_catalog.2
    = (Ok (), foo_catalog.1, update_obj 0 c' foo_catalog.2)
    /\ od_get ("foo", None) (_messages foo_catalog.1) = Some 0
    /\ msg_locations c' = [("main.py", 1%Z); ("utils.py", 5%Z)].
Proof.
  destruct (setitem_merges_in_place (IdStr "foo") 1 foo_catalog.1 foo_catalog.2
              (Message_at (IdStr "foo") (StrStr "") [("utils.py", 5%Z)]) 0
              (Message_at (IdStr "foo") (StrStr "") [("main.py", 1%Z)])
              eq_refl eq_refl eq_refl)
    as (c' & Hset & _ & _ & Hloc & _).
  exists c'. split; [exact Hset|]. split; [reflexivity|].
  rewrite Hloc. reflexivity.
Defined.

(** The same through [Catalog.add]: the message returned by the second
    call is the entry of the first, with both locations. *)
Example add_twice_unions_locations :
  let '(_, self, h) :=
    add (IdStr "foo") StrNone [("main.py", 1%Z)] [] [] [] (PrevSeq []) None None
      Catalog_init empty_heap in
  let '(r, self, h) :=
    add (IdStr "foo") StrNone [("utils.py", 5%Z)] [] [] [] (PrevSeq []) None None
      self h in
  r = Ok (Some 0)
  /\ _messages self = [(("foo", None), 0)]
  /\ msg_locations <$> objs h !! 0 = Some [("main.py", 1%Z); ("utils.py", 5%Z)].
Proof. by vm_compute. Qed.

(** ** The check on pluralizable ids *)


Lemma setitem_existing_key_upgrades_to_plain_string :
  exists h c,
    __setitem__ (IdSeq "salad" ["salads"]) 1 salad_catalog.1 salad_catalog.2
    = (Ok (), salad_catalog.1, h)
    /\ od_get ("salad", None) (_messages salad_catalog.1) = Some 0
    /\ objs h !! 0 = Some c
    /\ msg_id c = IdSeq "salad" ["salads"]
    /\ msg_string c = StrStr "Salate".
Proof. do 2 eexists. split; [vm_compute; reflexivity|]. by vm_compute. Qed.



(** ** The ['python-format'] flag *)

Lemma init_flag_tracks_id id string' locations flags auto_comments
    user_comments previous_id lineno context :
  flag_tracks_id (Message_init id string' locations flags auto_comments
                    user_comments previous_id lineno context).
Proof.
  unfold flag_tracks_id, Message_init, has_placeholder. simpl.
  destruct (id_truthy id && id_python_format id).
  - split; [done|]. intros _. apply elem_of_union_r. by apply elem_of_singleton.
  - split; [|done]. rewrite elem_of_difference, elem_of_singleton. tauto.
Qed.

(** C10 (counterexample).  After [('apple', 'apples')] and then
    [('apple', '%d apples')] have been stored, both as constructed, the
    entry (the first message, which keeps its id) carries the flag
    although its id has no placeholder. *)
Lemma stored_flag_without_placeholder :
  ~ stored flag_tracks_id apple_catalog.1 apple_catalog.2.
Proof.
  intros H.
  assert (Hm : exists m,
    objs apple_catalog.2 !! 0 = Some m
    /\ "python-format" ∈ msg_flags m
    /\ has_placeholder (msg_id m) = false).
  { eexists. split; [vm_compute; reflexivity|]. split; [|by vm_compute].
    apply (bool_decide_unpack _). by vm_compute. }
  destruct Hm as (m & Hobj & Hflag & Hid).
  apply (H ("apple", None) 0 m eq_refl Hobj) in Hflag. congruence.
Qed.

(** C10 (amended).  Every message carries the flag as constructed exactly
    when its id has a placeholder, whatever flags were passed; and
    [__setitem__] keeps the flag on every stored message whose id has a
    placeholder, provided the message passed in has it. *)
Theorem python_format_flag_kept id message self h r self' h'
    (Hstored : stored flag_covers_id self h)
    (Hmsg : forall m, objs h !! message = Some m -> flag_covers_id m)
    (Hset : __setitem__ id message self h = (r, self', h')) :
  stored flag_covers_id self' h'
  /\ forall id string' locations flags auto_comments user_comments
            previous_id lineno context,
       flag_tracks_id (Message_init id string' locations flags auto_comments
                         user_comments previous_id lineno context).
Proof.
  split; [|intros; apply init_flag_tracks_id].
  unfold __setitem__ in Hset.
  destruct (objs h !! message) as [m|] eqn:Hm; [|by simplify_eq].
  specialize (Hmsg m eq_refl).
  destruct (od_get _ (_messages self)) as [current|] eqn:Hkey.
  - destruct (objs h !! current) as [c|] eqn:Hc; [|by simplify_eq].
    simplify_eq. intros k l m' Hk Hl. simpl in Hl.
    destruct (decide (l = current)) as [->|Hne].
    + rewrite lookup_insert_eq in Hl. simplify_eq.
      pose proof (Hstored _ _ _ Hkey Hc) as Hcov.
      unfold flag_covers_id in *. simpl.
      destruct (pluralizable m && negb (pluralizable c)); set_solver.
    + rewrite lookup_insert_ne in Hl by done. by eapply Hstored.
  - destruct (decide (id = IdStr "")).
    + destruct (msg_string m); simplify_eq;
        intros k l m' Hk Hl; by eapply Hstored.
    + destruct (id_is_seq id && negb (str_is_seq (msg_string m)));
        simplify_eq; [done|].
      intros k l m' Hk Hl. simpl in Hk.
      destruct (decide (_key_for id (msg_context m) = k)) as [<-|Hne].
      * rewrite od_get_set_eq in Hk. by simplify_eq.
      * rewrite od_get_set_ne in Hk by done. by eapply Hstored.
Qed.

(** Storing [Message(('apple', '%d apples'))] in an empty catalog. *)
Lemma python_format_flag_kept_witness :
  let m := Message_at (IdSeq "apple" ["%d apples"]) (StrStr "") [] in
  let h := (alloc m empty_heap).2 in
  let self := Cat [(("apple", None), 0)] [] None None true in
  __setitem__ (IdSeq "apple" ["%d apples"]) 0 Catalog_init h = (Ok (), self, h)
  /\ stored flag_covers_id self h
  /\ flag_tracks_id m.
Proof.
  intros m h self.
  assert (Hset : __setitem__ (IdSeq "apple" ["%d apples"]) 0 Catalog_init h
                 = (Ok (), self, h)) by reflexivity.
  destruct (python_format_flag_kept (IdSeq "apple" ["%d apples"]) 0
              Catalog_init h (Ok ()) self h) as [Hinv Hinit].
  - intros k l m' Hk. discriminate Hk.
  - intros m' Hm. injection Hm as <-. intros _.
    apply (bool_decide_unpack _). by vm_compute.
  - exact Hset.
  - split; [exact Hset|]. split; [exact Hinv | apply Hinit].
Defined.

(** ** [update] on the docstring example *)

Section UpdateProps.

Variables similarity similarity' : msgid -> msgid -> Q.

(** No prior message reaches the threshold: no fuzzy match. *)
Lemma closest_match_none id prior :
  Forall (fun e => Qle_bool cutoff (similarity id (msg_id e.2)) = false) prior ->
  closest_match similarity id prior = None.
Proof.
  unfold closest_match. induction 1 as [|e prior He _ IH]; [done|].
  simpl. by rewrite He.
Qed.

Lemma update_step_ext no_fuzzy keep prior acc t :
  same_fuzzy_match similarity similarity' prior t ->
  update_step similarity no_fuzzy keep prior acc t
  = update_step similarity' no_fuzzy keep prior acc t.
Proof.
  intros Hsame. unfold update_step.
  destruct (exact_match _ prior) eqn:Hexact; [done|].
  by rewrite Hsame.
Qed.

Lemma update_ext template no_fuzzy header keep self h :
  Forall (same_fuzzy_match similarity similarity' (entries (_messages self) h))
    (entries (_messages template) h) ->
  update similarity template no_fuzzy header keep self h
  = update similarity' template no_fuzzy header keep self h.
Proof.
  intros Hall. unfold update.
  set (prior := entries (_messages self) h) in *.
  assert (Hfold : forall ts acc,
    Forall (same_fuzzy_match similarity similarity' prior) ts ->
    fold_left (update_step similarity no_fuzzy keep prior) ts acc
    = fold_left (update_step similarity' no_fuzzy keep prior) ts acc).
  { induction ts as [|t ts IH]; intros acc Hts; [done|].
    apply Forall_cons in Hts as [Ht Hts]. simpl.
    rewrite update_step_ext by done. by apply IH. }
  by rewrite Hfold.
Qed.

End UpdateProps.

(** C2.  The docstring scenario, for any similarity under which ['green']
    stays below the threshold against each prior id: after
    [catalog.update(template)] the live messages are [green], [blue] and
    [salad] in that order, with the strings [None], ['blau'] and
    [('Salat', 'Salate')] and the template's locations, and [obsolete]
    holds exactly the entry for ['head'], the very object that was stored,
    its data unchanged. *)
Theorem update_docstring_scenario similarity
    (Hblue : Qle_bool cutoff (similarity (IdStr "green") (IdStr "blue")) = false)
    (Hhead : Qle_bool cutoff (similarity (IdStr "green") (IdStr "head")) = false)
    (Hsalad : Qle_bool cutoff
                (similarity (IdStr "green") (IdSeq "salad" ["salads"])) = false) :
  let after :=
    update similarity scenario_template.1 false false true
      scenario_catalog.1 scenario_catalog.2 in
  map (fun e => (e.1.1, msg_string e.2, msg_locations e.2))
    (entries (_messages after.1) after.2)
  = [(("green", None), StrNone, [("main.py", 99%Z)]);
     (("blue", None), StrStr "blau", [("main.py", 100%Z)]);
     (("salad", None), StrSeq ["Salat"; "Salate"], [("util.py", 42%Z)])]
  /\ length (_messages after.1) = 3
  /\ obsolete after.1 = [(("head", None), 4)]
  /\ od_get ("head", None) (_messages scenario_catalog.1) = Some 4
  /\ objs after.2 !! 4 = objs scenario_catalog.2 !! 4
  /\ objs after.2 !! 4
     = Some (Message_at (IdStr "head") (StrStr "Kopf") [("util.py", 33%Z)]).
Proof.
  intros after. subst after.
  rewrite (update_ext similarity (fun _ _ => 0%Q)); [by vm_compute|].
  eassert (Htemplate : entries (_messages scenario_template.1) scenario_catalog.2 = _)
    by (vm_compute; reflexivity).
  eassert (Hprior : entries (_messages scenario_catalog.1) scenario_catalog.2 = _)
    by (vm_compute; reflexivity).
  rewrite Htemplate, Hprior. repeat apply Forall_cons_2; [| | | by apply Forall_nil].
  - intros _. rewrite !closest_match_none; [done | |].
    + by repeat constructor.
    + repeat constructor; simpl; assumption.
  - intros Hexact. vm_compute in Hexact. discriminate.
  - intros Hexact. vm_compute in Hexact. discriminate.
Qed.

(** The scenario with the similarity that is 1 on equal ids and 0
    otherwise. *)
Lemma update_docstring_scenario_witness :
  let similarity a b := if bool_decide (a = b) then 1%Q else 0%Q in
  let after :=
    update similarity scenario_template.1 false false true
      scenario_catalog.1 scenario_catalog.2 in
  Qle_bool cutoff (similarity (IdStr "green") (IdStr "blue")) = false
  /\ length (_messages after.1) = 3
  /\ obsolete after.1 = [(("head", None), 4)].
Proof.
  intros similarity after.
  assert (Hblue : Qle_bool cutoff (similarity (IdStr "green") (IdStr "blue")) = false)
    by (vm_compute; reflexivity).
  assert (Hhead : Qle_bool cutoff (similarity (IdStr "green") (IdStr "head")) = false)
    by (vm_compute; reflexivity).
  assert (Hsalad : Qle_bool cutoff
                     (similarity (IdStr "green") (IdSeq "salad" ["salads"])) = false)
    by (vm_compute; reflexivity).
  destruct (update_docstring_scenario similarity Hblue Hhead Hsalad)
    as (_ & Hlen & Hobs & _).
  split; [exact Hblue|]. split; [exact Hlen | exact Hobs].
Defined.

End MessagesProps.

(* ===================================================================== *)
(** * Properties of the checkers                                          *)
(* ===================================================================== *)

Module CheckersProps.

Import PythonFormat Messages Checkers MessagesNotions.

(** The doctests of [Message.python_format] and [Message.pluralizable]. *)
Example python_format_doctest :
  Messages.python_format (Message_at (IdStr "foo %(name)s bar") (StrStr "") []) = true
  /\ Messages.python_format
       (Message_at (IdSeq "foo %(name)s" ["foo %(name)s"]) (StrStr "") []) = true
  /\ pluralizable (Message_at (IdStr "foo") (StrStr "") []) = false
  /\ pluralizable (Message_at (IdSeq "foo" ["bar"]) (StrStr "") []) = true.
Proof. by vm_compute. Qed.

(** What the checker tests: it raises exactly when the id has a
    placeholder, there is a translation, and the translation has no
    placeholder at all. *)
Lemma python_format_raises_iff catalog m :
  (exists e, python_format catalog m = Raise e)
  <-> Messages.python_format m = true
      /\ str_truthy (msg_string m) = true
      /\ search (first_id m) = true
      /\ search (first_string m) = false.
Proof.
  unfold python_format. fold (first_id m). fold (first_string m).
  destruct (Messages.python_format m), (str_truthy (msg_string m)),
    (search (first_id m)), (search (first_string m)); simpl;
    split; try (intros [e He]; discriminate); try (intros (?&?&?&?); discriminate);
    eauto.
Qed.

(** A translation with any placeholder passes the checker. *)
Lemma python_format_passes_with_placeholder catalog m :
  search (first_string m) = true -> python_format catalog m = Ok ().
Proof.
  intros H. unfold python_format. fold (first_id m). fold (first_string m).
  rewrite H. by destruct (Messages.python_format m), (str_truthy (msg_string m)),
    (search (first_id m)).
Qed.

(** C8 (the code at the failing input).  On the three examples
    [_validate_format] answers as the specification says (fail, pass,
    fail), but the checker [python_format], which does not call it,
    accepts all three messages. *)
Theorem python_format_checker_accepts_mismatch :
  _validate_format "Hello %(name)s!" "Hallo %s!"
  = Raise (TranslationError "the format strings are of different kinds")
  /\ _validate_format "Hello %i!" "Hallo %d!" = Ok ()
  /\ _validate_format "%s" "%x"
     = Raise (TranslationError "format specifiers are incompatible")
  /\ Messages.python_format (Message_at (IdStr "Hello %(name)s!") (StrStr "Hallo %s!") [])
     = true
  /\ python_format None (Message_at (IdStr "Hello %(name)s!") (StrStr "Hallo %s!") [])
     = Ok ()
  /\ python_format None (Message_at (IdStr "Hello %i!") (StrStr "Hallo %d!") [])
     = Ok ()
  /\ python_format None (Message_at (IdStr "%s") (StrStr "%x") []) = Ok ().
Proof. repeat split; by vm_compute. Qed.

End CheckersProps.
